(** * Dollar words

    A shallow embedding of [dollarwords.py] and the proofs of its
    specification.  A word is a Python 2 byte string; Python integers are
    unbounded and are modelled by [Z]; the dictionary [letter_values] is a
    finite map; the list that [sort_by_length] sorts in place lives in a
    store of list objects. *)

From stdpp Require Import gmap strings list sorting.
From Stdlib Require Import ZArith Ascii String.

Local Open Scope Z_scope.

(** ** Words and their letters *)

(** [string.lowercase]. *)
Definition lowercase : list ascii :=
  list_ascii_of_string "abcdefghijklmnopqrstuvwxyz".

(** [range(m, n)]. *)
Definition range (m n : Z) : list Z := seqZ m (n - m).

(** [dict(zip(string.lowercase, range(1, 27)))].  The keys are pairwise
    distinct, so no later pair overwrites an earlier one. *)
Definition letter_values : gmap ascii Z :=
  list_to_map (zip lowercase (range 1 27)).

(** [d.get(k, default)]. *)
Definition get (d : gmap ascii Z) (k : ascii) (default : Z) : Z :=
  match d !! k with
  | Some v => v
  | None => default
  end.

(** [for letter in word] visits the characters of the string in order. *)
Definition letters (word : string) : list ascii := list_ascii_of_string word.

(** [len(word)] for a string. *)
Definition str_len (word : string) : Z := Z.of_nat (String.length word).

(** ** The scorer and filter *)

(** The inner loop of [get_dollar_words], entered with the running [value]
    and the letters still to visit; the result is [value] when the loop is
    left, either at the end of the word or through [break].
<<
        for letter in word:
            value += letter_values.get(letter, 0)
            if value > 100:
                break
>> *)
Fixpoint scan (value : Z) (word : list ascii) : Z :=
  match word with
  | [] => value
  | letter :: rest =>
      let value := value + get letter_values letter 0 in
      if 100 <? value then value else scan value rest
  end.

(** The body of the outer loop: one word, the accumulator [dollar_words]. *)
Definition visit (dollar_words : list string) (word : string) : list string :=
  let value := scan 0 (letters word) in
  if value =? 100 then dollar_words ++ [word] else dollar_words.

(** [get_dollar_words(words)]. *)
Definition get_dollar_words (words : list string) : list string :=
  foldl visit [] words.

(** ** Letter values and totals *)

(** The value one letter adds to [value]. *)
Definition letter_value (letter : ascii) : Z := get letter_values letter 0.

(** [sum(xs)]. *)
Definition sum (xs : list Z) : Z := foldl Z.add 0 xs.

(** The plain full scan the module's documentation gives as the alternative
    to the loop: [sum(letter_values.get(l, 0) for l in word)]. *)
Definition total (word : list ascii) : Z := sum (letter_value <$> word).

Definition total_value (word : string) : Z := total (letters word).

(** The value of the variable [value] when the inner loop is left. *)
Definition scanned_value (word : string) : Z := scan 0 (letters word).

(** The documentation's variant of the filter, without the early exit:
<<
    if sum(letter_values.get(l, 0) for l in word) == 100
        dollar_words.append(word)
>> *)
Definition visit_plain (dollar_words : list string) (word : string)
  : list string :=
  if total_value word =? 100 then dollar_words ++ [word] else dollar_words.

Definition get_dollar_words_plain (words : list string) : list string :=
  foldl visit_plain [] words.

(** The successive values the loop assigns to [value], one for each
    [value += ...] it executes. *)
Fixpoint running (value : Z) (word : list ascii) : list Z :=
  match word with
  | [] => []
  | letter :: rest =>
      let value := value + get letter_values letter 0 in
      value :: (if 100 <? value then [] else running value rest)
  end.

(** The position of a character in the alphabet as the specification words
    it: 1 for [a] up to 26 for [z], and 0 for every other character. *)
Definition alphabet_position (c : ascii) : Z :=
  let n := Z.of_nat (nat_of_ascii c) in
  if (97 <=? n) && (n <=? 122) then n - 96 else 0.

(** The total letter value of a word as the specification words it: the
    sum, over its characters, of their positions in the alphabet. *)
Definition alphabet_value (word : string) : Z :=
  sum (alphabet_position <$> letters word).

(** ** Items, exceptions and the store of lists *)

Inductive exn : Set := TypeError | AttributeError.

(** The outcome of a call: a value, or a raised exception. *)
Inductive result (A : Type) : Type :=
  | Return (a : A)
  | Raise (e : exn).
Arguments Return {A} a.
Arguments Raise {A} e.

#[export] Instance result_ret : MRet result := @Return.
#[export] Instance result_bind : MBind result := λ A B f m,
  match m with
  | Return a => f a
  | Raise e => Raise e
  end.

(** The objects a list may hold: strings and tuples have a length, integers
    and [None] have none. *)
Inductive item : Type :=
  | Str (s : string)
  | Tuple (t : list Z)
  | Int (n : Z)
  | NoneObj.

#[export] Instance item_eq_dec : EqDecision item.
Proof. solve_decision. Defined.

(** [len(w)]. *)
Definition len (w : item) : result Z :=
  match w with
  | Str s => Return (str_len s)
  | Tuple t => Return (Z.of_nat (List.length t))
  | Int _ | NoneObj => Raise TypeError
  end.

(** [list.sort(key=...)] first calls [key] on every element, from left to
    right, and pairs each element with its key; an exception of [key] leaves
    the list as it was. *)
Fixpoint decorate (key : item → result Z) (l : list item)
  : result (list (Z * item)) :=
  match l with
  | [] => Return []
  | x :: l =>
      k ← key x;
      kl ← decorate key l;
      Return ((k, x) :: kl)
  end.

(** The pairs are then sorted by key alone with [<], stably: among equal keys
    the earlier element stays first. *)
Fixpoint insert_key (p : Z * item) (l : list (Z * item)) : list (Z * item) :=
  match l with
  | [] => [p]
  | q :: l' => if q.1 <? p.1 then q :: insert_key p l' else p :: l
  end.

Definition stable_sort (l : list (Z * item)) : list (Z * item) :=
  foldr insert_key [] l.

Definition list_sort (key : item → result Z) (l : list item)
  : result (list item) :=
  kl ← decorate key l;
  Return ((stable_sort kl).*2).

(** Two decorated elements in key order. *)
Definition key_le (p q : Z * item) : Prop := p.1 ≤ q.1.

(** An element has a length. *)
Definition measurable (w : item) : Prop := ∃ n, len w = Return n.

#[export] Instance measurable_dec (w : item) : Decision (measurable w).
Proof.
  destruct w; first [left; by eexists | right; by intros [? ?]].
Defined.

(** The length sequence of a list. *)
Fixpoint lengths (l : list item) : result (list Z) :=
  match l with
  | [] => Return []
  | w :: l =>
      n ← len w;
      ns ← lengths l;
      Return (n :: ns)
  end.

(** A reference to a list object, and the store holding the list objects. *)
Definition loc : Set := positive.
Abbreviation store := (gmap loc (list item)).

(** [sort_by_length(items)]: [items] refers to a list of the store, which
    [items.sort(key=lambda w: len(w))] reorders in place; the same reference
    is returned.  The call has no meaning ([None]) when [items] is not a list
    of the store; an argument that is no list is the matter of
    [sort_by_length_seq] below. *)
Definition sort_by_length (items : loc) (σ : store)
  : option (result loc * store) :=
  l ← σ !! items;
  match list_sort (λ w, len w) l with
  | Return l' => Some (Return items, <[items := l']> σ)
  | Raise e => Some (Raise e, σ)
  end.




(** ** The data of the module's tests *)

(** ['b' * 50], ['a' * 100]. *)
Fixpoint str_mul (s : string) (n : nat) : string :=
  match n with
  | O => ""
  | S n => s +:+ str_mul s n
  end.

Definition change : list string :=
  [""; "  "; "some"; "words"; "that"; "do"; "not"; "add"; "up"; "to"; "a";
   "dollar"].

Definition dollar : list string :=
  ["yyyy"; "yyyy"; "yyyax"; "yyy !y"; str_mul "b" 50; str_mul "a" 100].

(** The list [sorted] of [test_sort_by_length]. *)
Definition in_order : list item :=
  [Str ""; Tuple [1; 2; 3]; Str "yyyy"; Str "yyyy"; Str "yyyax";
   Str (str_mul "b" 50); Str (str_mul "a" 100)].

(** ** What the tests and the driver use *)

(** [l * n] for a list. *)
Definition list_mul {A} (l : list A) (n : nat) : list A :=
  List.concat (replicate n l).

(** [for word in s] over a string [s] visits its characters, each a string of
    one character. *)
Definition str_iter (s : string) : list string :=
  (λ c, String c EmptyString) <$> letters s.

(** [c.isspace()]: tab, line feed, vertical tab, form feed, carriage return
    and space. *)
Definition isspace (c : ascii) : bool :=
  bool_decide (nat_of_ascii c ∈ [9; 10; 11; 12; 13; 32]%nat).

Fixpoint lstrip (w : list ascii) : list ascii :=
  match w with
  | [] => []
  | c :: rest => if isspace c then lstrip rest else w
  end.

Definition rstrip (w : list ascii) : list ascii :=
  reverse (lstrip (reverse w)).

(** [w.strip()]. *)
Definition strip (w : string) : string :=
  string_of_list_ascii (rstrip (lstrip (letters w))).

#[export] Instance exn_eq_dec : EqDecision exn.
Proof. solve_decision. Defined.

#[export] Instance result_eq_dec `{EqDecision A} : EqDecision (result A).
Proof. solve_decision. Defined.

#[export] Instance Str_inj : Inj (=) (=) Str.
Proof. by intros s1 s2 [= ->]. Defined.

(** [sep.join(l)] takes strings only. *)
Definition as_str (w : item) : result string :=
  match w with
  | Str s => Return s
  | Tuple _ | Int _ | NoneObj => Raise TypeError
  end.

Fixpoint strs (l : list item) : result (list string) :=
  match l with
  | [] => Return []
  | w :: l =>
      s ← as_str w;
      ss ← strs l;
      Return (s :: ss)
  end.

Fixpoint str_join (sep : string) (ws : list string) : string :=
  match ws with
  | [] => ""
  | w :: ws' =>
      match ws' with
      | [] => w
      | _ :: _ => w +:+ sep +:+ str_join sep ws'
      end
  end.

Definition join (sep : string) (l : list item) : result string :=
  ss ← strs l;
  Return (str_join sep ss).

Definition newline : string := String "010" "".

(** The driver, from the lines [readlines()] gave to the text [print]
    writes; the lists [words] and [dollar_words] are the objects 1 and 2 of
    the store.
<<
    words = [w.strip() for w in open('american-words.80').readlines()]
    dollar_words = get_dollar_words(words)
    sorted_words = sort_by_length(dollar_words)
    print '\n'.join(sorted_words)
>> *)
Definition main (lines : list string) : option (result string * store) :=
  let words := strip <$> lines in
  let dollar_words := get_dollar_words words in
  let σ : store :=
    {[1%positive := Str <$> words; 2%positive := Str <$> dollar_words]} in
  '(r, σ') ← sort_by_length 2%positive σ;
  match r with
  | Raise e => Some (Raise e, σ')
  | Return sorted_words =>
      l ← σ' !! sorted_words;
      Some (text ← join newline l; Return (text +:+ newline), σ')
  end.

(** ** Facts about letter values *)

Lemma letter_value_position (c : ascii) : letter_value c = alphabet_position c.
Proof. by destruct c as [[] [] [] [] [] [] [] []]; vm_compute. Qed.

Lemma alphabet_position_bounds (c : ascii) : 0 ≤ alphabet_position c ≤ 26.
Proof.
  unfold alphabet_position. cbv zeta.
  destruct (97 <=? _) eqn:?, (_ <=? 122) eqn:?; simpl; lia.
Qed.

Lemma letter_value_bounds (c : ascii) : 0 ≤ letter_value c ≤ 26.
Proof. rewrite letter_value_position. apply alphabet_position_bounds. Qed.

(** ** Facts about sums *)

Lemma foldl_add (a : Z) (xs : list Z) : foldl Z.add a xs = a + sum xs.
Proof.
  unfold sum. revert a.
  induction xs as [|x xs IH]; intros a; simpl; [lia|].
  rewrite (IH (a + x)), (IH (0 + x)). lia.
Qed.

Lemma sum_cons (x : Z) (xs : list Z) : sum (x :: xs) = x + sum xs.
Proof. unfold sum at 1. simpl. apply foldl_add. Qed.

Lemma total_nil : total [] = 0.
Proof. reflexivity. Qed.

Lemma total_cons (c : ascii) (w : list ascii) :
  total (c :: w) = letter_value c + total w.
Proof. unfold total. rewrite fmap_cons. apply sum_cons. Qed.

Lemma total_app (w1 w2 : list ascii) : total (w1 ++ w2) = total w1 + total w2.
Proof.
  induction w1 as [|c w1 IH]; simpl; [rewrite total_nil; lia|].
  rewrite !total_cons, IH. lia.
Qed.

Lemma total_nonneg (w : list ascii) : 0 ≤ total w.
Proof.
  induction w as [|c w IH]; [by rewrite total_nil|].
  rewrite total_cons. pose proof (letter_value_bounds c). lia.
Qed.

Lemma total_le_length (w : list ascii) : total w ≤ 26 * Z.of_nat (List.length w).
Proof.
  induction w as [|c w IH]; [by rewrite total_nil|].
  rewrite total_cons. pose proof (letter_value_bounds c). simpl List.length. lia.
Qed.

Lemma total_take_le (w : list ascii) (i j : nat) :
  (i ≤ j)%nat → total (take i w) ≤ total (take j w).
Proof.
  intros Hij. replace j with (i + (j - i))%nat by lia.
  rewrite <- take_take_drop, total_app.
  pose proof (total_nonneg (take (j - i) (drop i w))). lia.
Qed.

Lemma length_letters (w : string) :
  Z.of_nat (List.length (letters w)) = str_len w.
Proof.
  unfold str_len, letters. f_equal.
  induction w as [|c w IH]; simpl; congruence.
Qed.

(** ** The inner loop *)

Lemma scan_cons (v : Z) (c : ascii) (w : list ascii) :
  scan v (c :: w) =
    if 100 <? v + letter_value c then v + letter_value c
    else scan (v + letter_value c) w.
Proof. reflexivity. Qed.

(** The loop's result against the full sum: equal up to 100, above 100
    together. *)
Lemma scan_total (v : Z) (w : list ascii) :
  (v + total w ≤ 100 → scan v w = v + total w) ∧
  (100 < v + total w → 100 < scan v w).
Proof.
  revert v. induction w as [|c w IH]; intros v.
  - rewrite total_nil. simpl. lia.
  - rewrite scan_cons, total_cons.
    pose proof (total_nonneg w) as Hw.
    destruct (Z.ltb_spec 100 (v + letter_value c)) as [Hgt|Hle].
    + lia.
    + destruct (IH (v + letter_value c)) as [IH1 IH2].
      split; intros H; [rewrite IH1|apply IH2]; lia.
Qed.

Lemma scan_100 (v : Z) (w : list ascii) : scan v w = 100 ↔ v + total w = 100.
Proof.
  destruct (scan_total v w) as [H1 H2].
  destruct (Z.le_gt_cases (v + total w) 100) as [Hle|Hgt].
  - rewrite (H1 Hle). done.
  - specialize (H2 Hgt). lia.
Qed.

(** The loop consumes the shortest prefix whose sum exceeds 100, and the
    whole word when there is none. *)
Lemma scan_prefix (v : Z) (w : list ascii) :
  ∃ n : nat,
    (n ≤ List.length w)%nat ∧
    scan v w = v + total (take n w) ∧
    (∀ k : nat, (0 < k < n)%nat → v + total (take k w) ≤ 100) ∧
    ((n < List.length w)%nat → 100 < v + total (take n w)).
Proof.
  revert v. induction w as [|c w IH]; intros v.
  - exists 0%nat. simpl. rewrite total_nil. repeat split; lia.
  - rewrite scan_cons.
    destruct (Z.ltb_spec 100 (v + letter_value c)) as [Hgt|Hle].
    + exists 1%nat. simpl. rewrite take_0, total_cons, total_nil.
      repeat split; lia.
    + destruct (IH (v + letter_value c)) as (n & Hn & Hs & Hk & Hstop).
      exists (S n). simpl. rewrite total_cons.
      split; [lia|]. split; [lia|]. split.
      * intros [|k] Hk'; [lia|]. simpl. rewrite total_cons.
        destruct k as [|k]; [rewrite take_0, total_nil; lia|].
        specialize (Hk (S k)). lia.
      * intros Hlt. lia.
Qed.

Lemma running_lookup (v : Z) (w : list ascii) (k : nat) (x : Z) :
  running v w !! k = Some x → x = v + total (take (S k) w).
Proof.
  revert v k. induction w as [|c w IH]; intros v k; [done|].
  simpl. destruct k as [|k]; simpl.
  - intros [= <-]. rewrite take_0, total_cons, total_nil.
    fold (letter_value c). lia.
  - fold (letter_value c).
    destruct (100 <? v + letter_value c); [done|].
    intros H. apply IH in H. rewrite H, (total_cons c). simpl. lia.
Qed.

Lemma running_sorted (v : Z) (w : list ascii) : Sorted Z.le (v :: running v w).
Proof.
  revert v. induction w as [|c w IH]; intros v; simpl.
  - repeat constructor.
  - fold (letter_value c). pose proof (letter_value_bounds c).
    constructor; [|constructor; lia].
    destruct (100 <? v + letter_value c); [repeat constructor|apply IH].
Qed.

Lemma running_last_cons (v : Z) (c : ascii) (w : list ascii) :
  last (running v (c :: w)) = Some (scan v (c :: w)).
Proof.
  revert v c. induction w as [|c' w IH]; intros v c.
  - simpl. by destruct (100 <? _).
  - rewrite scan_cons. specialize (IH (v + letter_value c) c').
    change (running v (c :: c' :: w)) with
      (v + letter_value c ::
         (if 100 <? v + letter_value c then []
          else running (v + letter_value c) (c' :: w))).
    destruct (100 <? v + letter_value c); [done|].
    rewrite <- IH. done.
Qed.

Lemma running_last (v : Z) (w : list ascii) :
  default v (last (running v w)) = scan v w.
Proof. destruct w as [|c w]; [done|]. by rewrite running_last_cons. Qed.

(** ** The outer loop *)

Lemma visit_app (acc : list string) (w : string) :
  visit acc w = acc ++ filter (λ w, total_value w = 100) [w].
Proof.
  unfold visit. cbv zeta. rewrite filter_cons, filter_nil.
  destruct (Z.eqb_spec (scan 0 (letters w)) 100) as [H|H];
    rewrite scan_100 in H; simpl in H; fold (total_value w) in H;
    case_decide; try done. by rewrite app_nil_r.
Qed.

Lemma foldl_visit (acc : list string) (words : list string) :
  foldl visit acc words = acc ++ filter (λ w, total_value w = 100) words.
Proof.
  revert acc. induction words as [|w words IH]; intros acc; simpl.
  - by rewrite filter_nil, app_nil_r.
  - rewrite IH, visit_app, <- app_assoc, <- filter_app. done.
Qed.

Lemma visit_plain_app (acc : list string) (w : string) :
  visit_plain acc w = acc ++ filter (λ w, total_value w = 100) [w].
Proof.
  unfold visit_plain. rewrite filter_cons, filter_nil.
  destruct (Z.eqb_spec (total_value w) 100); case_decide; try done.
  by rewrite app_nil_r.
Qed.

Lemma foldl_visit_plain (acc : list string) (words : list string) :
  foldl visit_plain acc words = acc ++ filter (λ w, total_value w = 100) words.
Proof.
  revert acc. induction words as [|w words IH]; intros acc; simpl.
  - by rewrite filter_nil, app_nil_r.
  - rewrite IH, visit_plain_app, <- app_assoc, <- filter_app. done.
Qed.

Lemma get_dollar_words_filter (words : list string) :
  get_dollar_words words = filter (λ w, total_value w = 100) words.
Proof. unfold get_dollar_words. by rewrite foldl_visit. Qed.

Lemma get_dollar_words_app (l1 l2 : list string) :
  get_dollar_words (l1 ++ l2) = get_dollar_words l1 ++ get_dollar_words l2.
Proof. rewrite !get_dollar_words_filter. apply filter_app. Qed.

Lemma count_occ_filter (P : string → Prop) `{!∀ w, Decision (P w)}
    (l : list string) (w : string) :
  P w → count_occ string_dec (filter P l) w = count_occ string_dec l w.
Proof.
  intros Hw. induction l as [|x l IH]; [done|].
  rewrite filter_cons. destruct (decide (P x)) as [Hx|Hx]; simpl.
  - by rewrite IH.
  - destruct (string_dec x w) as [->|]; [done|apply IH].
Qed.

Lemma total_alphabet (w : list ascii) : total w = sum (alphabet_position <$> w).
Proof.
  unfold total. f_equal. apply list_fmap_ext. intros _ c _.
  apply letter_value_position.
Qed.

Lemma total_value_alphabet (w : string) : total_value w = alphabet_value w.
Proof. apply total_alphabet. Qed.

(** ** The stable sort on keys *)

Lemma insert_key_perm (p : Z * item) (l : list (Z * item)) :
  insert_key p l ≡ₚ p :: l.
Proof.
  induction l as [|q l IH]; simpl; [done|].
  destruct (q.1 <? p.1); [|done].
  rewrite IH. apply Permutation_swap.
Qed.

Lemma insert_key_hd (p q : Z * item) (l : list (Z * item)) :
  HdRel key_le q l → key_le q p → HdRel key_le q (insert_key p l).
Proof.
  intros Hl Hp. destruct l as [|r l]; simpl; [by constructor|].
  destruct (r.1 <? p.1); constructor; [by inversion Hl|done].
Qed.

Lemma insert_key_sorted (p : Z * item) (l : list (Z * item)) :
  Sorted key_le l → Sorted key_le (insert_key p l).
Proof.
  induction 1 as [|q l Hl IH Hq]; simpl; [by repeat constructor|].
  destruct (Z.ltb_spec q.1 p.1).
  - constructor; [done|]. apply insert_key_hd; [done|]. unfold key_le. lia.
  - constructor; [by constructor|]. constructor. unfold key_le. lia.
Qed.

Lemma stable_sort_perm (l : list (Z * item)) : stable_sort l ≡ₚ l.
Proof.
  induction l as [|p l IH]; [done|].
  unfold stable_sort in *. simpl. by rewrite insert_key_perm, IH.
Qed.

Lemma stable_sort_sorted (l : list (Z * item)) : Sorted key_le (stable_sort l).
Proof.
  induction l as [|p l IH]; [constructor|].
  by apply insert_key_sorted.
Qed.

(** A list already in key order is left as it is. *)
Lemma stable_sort_id (l : list (Z * item)) :
  Sorted key_le l → stable_sort l = l.
Proof.
  induction 1 as [|p l Hl IH Hp]; [done|].
  unfold stable_sort in *. simpl. rewrite IH.
  destruct Hp as [|q l Hpq]; [done|]. simpl.
  unfold key_le in Hpq. destruct (Z.ltb_spec q.1 p.1); [lia|done].
Qed.

(** ** Decoration *)

Section decorate.
Variable key : item → result Z.

Lemma decorate_Return (l : list item) (kl : list (Z * item)) :
  decorate key l = Return kl →
  kl.*2 = l ∧ Forall (λ p, key p.2 = Return p.1) kl.
Proof.
  revert kl. induction l as [|x l IH]; intros kl; simpl.
  - intros [= <-]. by split.
  - destruct (key x) as [k|e] eqn:Hk; [|done]. simpl.
    destruct (decorate key l) as [kl'|e]; [|done]. simpl.
    intros [= <-]. destruct (IH kl' eq_refl) as [<- HF]. split; [done|].
    by constructor.
Qed.

Lemma decorate_fmap (kl : list (Z * item)) :
  Forall (λ p, key p.2 = Return p.1) kl → decorate key kl.*2 = Return kl.
Proof.
  induction 1 as [|[k x] kl Hk _ IH]; [done|].
  rewrite fmap_cons. simpl in *. rewrite Hk. simpl. by rewrite IH.
Qed.


Lemma decorate_total (l : list item) :
  Forall (λ x, ∃ k, key x = Return k) l → ∃ kl, decorate key l = Return kl.
Proof.
  induction 1 as [|x l [k Hk] _ [kl IH]]; simpl; [by eexists|].
  rewrite Hk, IH. by eexists.
Qed.


End decorate.

Lemma lengths_fmap (kl : list (Z * item)) :
  Forall (λ p, len p.2 = Return p.1) kl → lengths kl.*2 = Return kl.*1.
Proof.
  induction 1 as [|[k x] kl Hk _ IH]; [done|].
  rewrite !fmap_cons. simpl in *. rewrite Hk. simpl. by rewrite IH.
Qed.



(** ** [list.sort] *)

Lemma list_sort_Return (key : item → result Z) (l l' : list item) :
  list_sort key l = Return l' →
  ∃ kl, decorate key l = Return kl ∧ l' = (stable_sort kl).*2.
Proof.
  unfold list_sort. destruct (decorate key l) as [kl|e]; [|done].
  simpl. intros [= <-]. by exists kl.
Qed.

Lemma list_sort_len (l l' : list item) :
  list_sort len l = Return l' →
  l' ≡ₚ l ∧
  (∃ ns, lengths l' = Return ns ∧ Sorted Z.le ns) ∧
  list_sort len l' = Return l'.
Proof.
  intros (kl & Hkl & ->)%list_sort_Return.
  apply decorate_Return in Hkl as [<- HF].
  assert (Forall (λ p, len p.2 = Return p.1) (stable_sort kl)) as HF'.
  { by rewrite stable_sort_perm. }
  split; [by rewrite stable_sort_perm|]. split.
  - exists (stable_sort kl).*1. split; [by apply lengths_fmap|].
    apply (Sorted_fmap _ key_le); [done|apply stable_sort_sorted].
  - unfold list_sort. rewrite (decorate_fmap _ _ HF'). simpl.
    by rewrite stable_sort_id by apply stable_sort_sorted.
Qed.

Lemma list_sort_total (l : list item) :
  Forall measurable l → ∃ l', list_sort len l = Return l'.
Proof.
  intros [kl Hkl]%decorate_total. unfold list_sort. rewrite Hkl. by eexists.
Qed.


(** ** The tests of the module *)

Example test_get_dollar_words :
  get_dollar_words [] = [] ∧
  get_dollar_words change = [] ∧
  get_dollar_words dollar = dollar ∧
  get_dollar_words (dollar ++ change) = dollar ∧
  get_dollar_words (dollar ++ change ++ dollar) = dollar ++ dollar.
Proof. by vm_compute. Qed.

Example test_sort_by_length :
  sort_by_length 1%positive {[1%positive := []]}
    = Some (Return 1%positive, {[1%positive := []]}) ∧
  sort_by_length 1%positive {[1%positive := in_order]}
    = Some (Return 1%positive, {[1%positive := in_order]}) ∧
  sort_by_length 1%positive {[1%positive := reverse in_order]}
    = Some (Return 1%positive, {[1%positive := in_order]}).
Proof. by vm_compute. Qed.

(** ** The specification of [get_dollar_words] *)

(** C1: [get_dollar_words] returns exactly the words of its input whose total
    letter value, with [a] worth 1 up to [z] worth 26 and every other
    character worth 0, is 100, in the order of the input and as often as the
    input has them. *)
Theorem get_dollar_words_exact (words : list string) :
  get_dollar_words words = filter (λ w, alphabet_value w = 100) words ∧
  get_dollar_words words `sublist_of` words ∧
  (∀ w, w ∈ get_dollar_words words ↔ w ∈ words ∧ alphabet_value w = 100) ∧
  (∀ w, alphabet_value w = 100 →
     count_occ string_dec (get_dollar_words words) w
       = count_occ string_dec words w) ∧
  (∀ w, total_value w = alphabet_value w).
Proof.
  assert (get_dollar_words words
            = filter (λ w, alphabet_value w = 100) words) as ->.
  { rewrite get_dollar_words_filter. apply list_filter_iff.
    intros w. by rewrite total_value_alphabet. }
  split; [done|]. split; [|split; [|split]].
  - apply sublist_filter.
  - intros w. by rewrite list_elem_of_filter, (comm and).
  - intros w Hw. by apply (count_occ_filter (λ w, alphabet_value w = 100)).
  - apply total_value_alphabet.
Qed.

(** C2, as the code has it: the loop adds for each character it visits the
    position of the character in the alphabet when it is one of [a] to [z]
    and 0 otherwise, and it visits the characters up to and including the
    first at which the running sum exceeds 100.  So the value it computes is
    the sum over the whole word whenever that sum is at most 100, and it is
    above 100 whenever that sum is; the empty word has value 0. *)
Theorem scanned_value_sum (w : string) :
  (∀ c, letter_value c = alphabet_position c) ∧
  (∃ n : nat,
     (n ≤ List.length (letters w))%nat ∧
     scanned_value w = sum (alphabet_position <$> take n (letters w)) ∧
     (∀ k : nat, (k < n)%nat →
        sum (alphabet_position <$> take k (letters w)) ≤ 100) ∧
     ((n < List.length (letters w))%nat → 100 < scanned_value w)) ∧
  (sum (alphabet_position <$> letters w) ≤ 100 →
     scanned_value w = sum (alphabet_position <$> letters w)) ∧
  (100 < sum (alphabet_position <$> letters w) → 100 < scanned_value w) ∧
  scanned_value "" = 0.
Proof.
  split; [apply letter_value_position|]. split; [|split; [|split]].
  - destruct (scan_prefix 0 (letters w)) as (n & Hn & Hs & Hk & Hstop).
    exists n. unfold scanned_value. rewrite Hs, <- total_alphabet.
    split; [done|]. split; [lia|]. split.
    + intros k Hlt. rewrite <- total_alphabet.
      destruct k as [|k]; [by rewrite take_0, total_nil|].
      specialize (Hk (S k)). lia.
    + intros Hlt. specialize (Hstop Hlt). lia.
  - rewrite <- total_alphabet. intros H.
    destruct (scan_total 0 (letters w)) as [H1 _].
    unfold scanned_value. rewrite H1; lia.
  - rewrite <- total_alphabet. intros H.
    destruct (scan_total 0 (letters w)) as [_ H2]. apply H2. lia.
  - done.
Qed.

(** C2, as stated, fails on a word whose sum passes 100 before its end: for
    [zzzzz] the loop stops at 104 and the sum of the five letters is 130. *)
Lemma scanned_value_zzzzz :
  scanned_value "zzzzz" = 104 ∧
  sum (alphabet_position <$> letters "zzzzz") = 130.
Proof. by vm_compute. Qed.

(** C4: the loop with the early exit keeps a word exactly when the plain full
    sum of its letters is 100, so both filters return the same list; the loop
    leaves a word early only on a running sum above 100, and every running
    sum before the one it stops at was at most 100. *)
Theorem early_exit_same_output :
  (∀ w, scanned_value w = 100 ↔ total_value w = 100) ∧
  (∀ words, get_dollar_words words = get_dollar_words_plain words) ∧
  (∀ w, ∃ n : nat,
     (n ≤ List.length (letters w))%nat ∧
     scanned_value w = total (take n (letters w)) ∧
     (∀ k : nat, (k < n)%nat → total (take k (letters w)) ≤ 100) ∧
     ((n < List.length (letters w))%nat →
        100 < total (take n (letters w)))) ∧
  (∀ v w, v + total w ≤ 100 → scan v w = v + total w).
Proof.
  split; [|split; [|split]].
  - intros w. unfold scanned_value, total_value. by rewrite scan_100.
  - intros words. rewrite get_dollar_words_filter.
    unfold get_dollar_words_plain. by rewrite foldl_visit_plain.
  - intros w.
    destruct (scan_prefix 0 (letters w)) as (n & Hn & Hs & Hk & Hstop).
    exists n. unfold scanned_value. rewrite Hs.
    split; [done|]. split; [lia|]. split; [|lia].
    intros [|k] Hlt; [by rewrite take_0, total_nil|].
    specialize (Hk (S k)). lia.
  - intros v w. apply scan_total.
Qed.

(** C6: no character has a negative value, the values the loop gives to its
    running sum never decrease, each of them is the sum of a prefix of the
    word, the prefix sums grow with the prefix, and after a prefix sum above
    100 no later one is 100. *)
Theorem running_sum_monotone (w : string) :
  (∀ c, 0 ≤ letter_value c) ∧
  Sorted Z.le (0 :: running 0 (letters w)) ∧
  (∀ (k : nat) x, running 0 (letters w) !! k = Some x →
     x = total (take (S k) (letters w))) ∧
  (∀ i j : nat, (i ≤ j)%nat →
     total (take i (letters w)) ≤ total (take j (letters w))) ∧
  (∀ i j : nat, (i ≤ j)%nat →
     100 < total (take i (letters w)) → total (take j (letters w)) ≠ 100).
Proof.
  split; [intros c; apply letter_value_bounds|].
  split; [apply running_sorted|]. split; [|split].
  - intros k x Hk. by apply running_lookup in Hk.
  - intros i j. apply total_take_le.
  - intros i j Hij Hi. pose proof (total_take_le (letters w) i j Hij). lia.
Qed.

(** C7: the dollar words of a list followed by itself are the dollar words
    of the list, twice. *)
Theorem get_dollar_words_twice (L : list string) :
  get_dollar_words (L ++ L) = get_dollar_words L ++ get_dollar_words L.
Proof. apply get_dollar_words_app. Qed.

(** C9: every word [get_dollar_words] returns has at least 4 characters; the
    largest letter value is 26, that of [z], and a word of 3 characters or
    fewer has a total below 100. *)
Theorem dollar_words_four_letters (words : list string) :
  Forall (λ w, 4 ≤ str_len w) (get_dollar_words words) ∧
  (∀ c, letter_value c ≤ 26) ∧
  letter_value "z" = 26 ∧
  (∀ w, str_len w ≤ 3 → total_value w < 100).
Proof.
  assert (∀ w, total_value w ≤ 26 * str_len w) as Hlen.
  { intros w. rewrite <- length_letters. apply total_le_length. }
  split; [|split; [|split]].
  - rewrite get_dollar_words_filter. apply Forall_forall.
    intros w [Hw _]%list_elem_of_filter. specialize (Hlen w). lia.
  - intros c. apply letter_value_bounds.
  - done.
  - intros w Hw. specialize (Hlen w). lia.
Qed.

(** ** The specification of [sort_by_length] *)

Lemma sort_by_length_lookup (items : loc) (σ : store) (l : list item) :
  σ !! items = Some l →
  sort_by_length items σ =
    match list_sort len l with
    | Return l' => Some (Return items, <[items := l']> σ)
    | Raise e => Some (Raise e, σ)
    end.
Proof. intros Hl. unfold sort_by_length. by rewrite Hl. Qed.

Lemma sort_by_length_Return (items : loc) (σ : store) (l l' : list item) :
  σ !! items = Some l → list_sort len l = Return l' →
  sort_by_length items σ = Some (Return items, <[items := l']> σ).
Proof. intros Hl Hs. by rewrite (sort_by_length_lookup _ _ l), Hs. Qed.

(** C3: on a list whose items all have a length, [sort_by_length] returns a
    list with the same items, as often, whose lengths never decrease; the
    empty list gives the empty list. *)
Theorem sort_by_length_sorts (items : loc) (σ : store) (l : list item) :
  σ !! items = Some l →
  Forall measurable l →
  ∃ l' ns,
    sort_by_length items σ = Some (Return items, <[items := l']> σ) ∧
    l' ≡ₚ l ∧
    lengths l' = Return ns ∧
    Sorted Z.le ns ∧
    (l = [] → l' = []).
Proof.
  intros Hl [l' Hs]%list_sort_total.
  destruct (list_sort_len _ _ Hs) as (Hperm & (ns & Hns & Hsorted) & _).
  exists l', ns. split; [by apply sort_by_length_Return with l|].
  repeat split; try done.
  intros ->. by apply Permutation_nil_r.
Qed.

Lemma sort_by_length_sorts_witness :
  ∃ l' ns,
    sort_by_length 1%positive {[1%positive := reverse in_order]}
      = Some (Return 1%positive,
              <[1%positive := l']> {[1%positive := reverse in_order]}) ∧
    l' ≡ₚ reverse in_order ∧
    lengths l' = Return ns ∧
    Sorted Z.le ns ∧
    (reverse in_order = [] → l' = []).
Proof.
  apply (sort_by_length_sorts 1%positive {[1%positive := reverse in_order]}).
  - reflexivity.
  - repeat constructor; by eexists.
Defined.





(** C8: sorting a sorted list again changes nothing: the second call returns
    the same list with the same contents, so the sequence of lengths and the
    items are those of the first call. *)
Theorem sort_by_length_twice (items : loc) (σ : store) (l : list item) :
  σ !! items = Some l →
  Forall measurable l →
  ∃ r1 σ1 l1 r2 σ2 l2,
    sort_by_length items σ = Some (Return r1, σ1) ∧
    σ1 !! r1 = Some l1 ∧
    sort_by_length r1 σ1 = Some (Return r2, σ2) ∧
    σ2 !! r2 = Some l2 ∧
    lengths l2 = lengths l1 ∧
    l2 ≡ₚ l1 ∧
    l2 = l1 ∧ σ2 = σ1.
Proof.
  intros Hl [l1 Hs]%list_sort_total.
  destruct (list_sort_len _ _ Hs) as (_ & _ & Hs1).
  assert (<[items := l1]> σ !! items = Some l1) as Hl1
    by apply lookup_insert_eq.
  exists items, (<[items := l1]> σ), l1, items, (<[items := l1]> σ), l1.
  split; [by apply sort_by_length_Return with l|]. split; [done|].
  split; [|done].
  rewrite (sort_by_length_Return _ _ l1 l1 Hl1 Hs1).
  by rewrite insert_insert_eq.
Qed.

Lemma sort_by_length_twice_witness :
  ∃ r1 σ1 l1 r2 σ2 l2,
    sort_by_length 1%positive {[1%positive := reverse in_order]}
      = Some (Return r1, σ1) ∧
    σ1 !! r1 = Some l1 ∧
    sort_by_length r1 σ1 = Some (Return r2, σ2) ∧
    σ2 !! r2 = Some l2 ∧
    lengths l2 = lengths l1 ∧
    l2 ≡ₚ l1 ∧
    l2 = l1 ∧ σ2 = σ1.
Proof.
  apply (sort_by_length_twice 1%positive {[1%positive := reverse in_order]}
           (reverse in_order)).
  - reflexivity.
  - repeat constructor; by eexists.
Defined.

(** C10: [sort_by_length] sorts the list it is given in place: it returns the
    reference it received, that list of the store now holds the same items
    in order of length, no list is created, and every other list is as it
    was. *)
Theorem sort_by_length_in_place (items : loc) (σ : store) (l : list item) :
  σ !! items = Some l →
  Forall measurable l →
  ∃ r σ' l' ns,
    sort_by_length items σ = Some (Return r, σ') ∧
    r = items ∧
    σ' !! items = Some l' ∧
    l' ≡ₚ l ∧
    lengths l' = Return ns ∧
    Sorted Z.le ns ∧
    dom σ' = dom σ ∧
    (∀ r', r' ≠ items → σ' !! r' = σ !! r').
Proof.
  intros Hl [l' Hs]%list_sort_total.
  destruct (list_sort_len _ _ Hs) as (Hperm & (ns & Hns & Hsorted) & _).
  exists items, (<[items := l']> σ), l', ns.
  split; [by apply sort_by_length_Return with l|]. split; [done|].
  split; [apply lookup_insert_eq|]. repeat split; try done.
  - apply dom_insert_lookup_L. by eexists.
  - intros r' Hr'. by apply lookup_insert_ne.
Qed.

Lemma sort_by_length_in_place_witness :
  ∃ r σ' l' ns,
    sort_by_length 2%positive
        {[1%positive := [Str "kept"; Str ""]; 2%positive := reverse in_order]}
      = Some (Return r, σ') ∧
    r = 2%positive ∧
    σ' !! 2%positive = Some l' ∧
    l' ≡ₚ reverse in_order ∧
    lengths l' = Return ns ∧
    Sorted Z.le ns ∧
    dom σ' = dom ({[1%positive := [Str "kept"; Str ""];
                    2%positive := reverse in_order]} : store) ∧
    (∀ r', r' ≠ 2%positive →
       σ' !! r' = ({[1%positive := [Str "kept"; Str ""];
                     2%positive := reverse in_order]} : store) !! r').
Proof.
  apply (sort_by_length_in_place 2%positive
           {[1%positive := [Str "kept"; Str ""]; 2%positive := reverse in_order]}
           (reverse in_order)).
  - reflexivity.
  - repeat constructor; by eexists.
Defined.

(** ** More on [get_dollar_words] *)

Lemma filter_all {A} (P : A → Prop) `{!∀ x, Decision (P x)} (l : list A) :
  Forall P l → filter P l = l.
Proof.
  induction 1 as [|x l Hx _ IH]; [done|].
  rewrite filter_cons. destruct (decide (P x)); [by rewrite IH|done].
Qed.

Lemma filter_none {A} (P : A → Prop) `{!∀ x, Decision (P x)} (l : list A) :
  Forall (λ x, ¬ P x) l → filter P l = [].
Proof.
  induction 1 as [|x l Hx _ IH]; [done|].
  rewrite filter_cons. by destruct (decide (P x)).
Qed.

Lemma filter_fmap {A B} (f : A → B) (P : B → Prop) `{!∀ y, Decision (P y)}
    (l : list A) :
  filter P (f <$> l) = f <$> filter (λ x, P (f x)) l.
Proof.
  induction l as [|x l IH]; [done|].
  rewrite fmap_cons, !filter_cons, IH.
  by destruct (decide (P (f x))).
Qed.

Lemma list_mul_S {A} (l : list A) (n : nat) :
  list_mul l (S n) = l ++ list_mul l n.
Proof. reflexivity. Qed.

Lemma lowercase_value (c : ascii) : c ∈ lowercase → 1 ≤ letter_value c.
Proof.
  revert c. apply Forall_forall.
  by apply (bool_decide_unpack _); vm_compute.
Qed.

Lemma isspace_value (c : ascii) : isspace c = true → letter_value c = 0.
Proof. by destruct c as [[] [] [] [] [] [] [] []]; vm_compute. Qed.

Lemma length_le_total (w : list ascii) :
  Forall (λ c, c ∈ lowercase) w → Z.of_nat (List.length w) ≤ total w.
Proof.
  induction 1 as [|c w Hc%lowercase_value _ IH]; [by rewrite total_nil|].
  rewrite total_cons. simpl List.length. lia.
Qed.

Lemma running_length (v : Z) (w : list ascii) :
  (List.length (running v w) ≤ List.length w)%nat.
Proof.
  revert v. induction w as [|c w IH]; intros v; simpl; [done|].
  destruct (100 <? _); simpl; [lia|]. specialize (IH (v + get letter_values c 0)).
  lia.
Qed.

Lemma running_length_lowercase (v : Z) (w : list ascii) :
  Forall (λ c, c ∈ lowercase) w → v ≤ 100 →
  Z.of_nat (List.length (running v w)) ≤ 101 - v.
Proof.
  intros Hw. revert v.
  induction Hw as [|c w Hc%lowercase_value _ IH]; intros v Hv; simpl; [lia|].
  fold (letter_value c).
  destruct (Z.ltb_spec 100 (v + letter_value c)); simpl; [lia|].
  specialize (IH (v + letter_value c)). lia.
Qed.

Lemma total_reverse (w : list ascii) : total (reverse w) = total w.
Proof.
  induction w as [|c w IH]; [done|].
  rewrite reverse_cons, total_app, IH, !total_cons, total_nil. lia.
Qed.

Lemma total_lstrip (w : list ascii) : total (lstrip w) = total w.
Proof.
  induction w as [|c w IH]; [done|]. simpl.
  destruct (isspace c) eqn:Hc; [|done].
  rewrite total_cons, (isspace_value c Hc), IH. lia.
Qed.

Lemma total_value_strip (w : string) : total_value (strip w) = total_value w.
Proof.
  unfold total_value, strip, letters, rstrip.
  rewrite list_ascii_of_string_of_list_ascii.
  by rewrite total_reverse, total_lstrip, total_reverse, total_lstrip.
Qed.

Lemma total_value_one (c : ascii) :
  total_value (String c EmptyString) = letter_value c.
Proof.
  unfold total_value, letters. simpl. rewrite total_cons, total_nil. lia.
Qed.

(** X1: [get_dollar_words] of two lists one after the other is what it
    returns for the first followed by what it returns for the second, and of
    the empty list it is empty. *)
Theorem get_dollar_words_concat (l1 l2 : list string) :
  get_dollar_words (l1 ++ l2) = get_dollar_words l1 ++ get_dollar_words l2 ∧
  get_dollar_words [] = [].
Proof. split; [apply get_dollar_words_app|done]. Qed.

(** X2: the list [get_dollar_words] returns holds dollar words only, so it
    is returned unchanged when given back. *)
Theorem get_dollar_words_idempotent (words : list string) :
  get_dollar_words (get_dollar_words words) = get_dollar_words words.
Proof.
  rewrite (get_dollar_words_filter (get_dollar_words words)).
  apply filter_all, Forall_forall.
  intros w. rewrite get_dollar_words_filter.
  by intros [? _]%list_elem_of_filter.
Qed.

(** X3: words that are no dollar words, put anywhere into the input, leave
    the output as it is. *)
Theorem get_dollar_words_skips (l1 junk l2 : list string) :
  Forall (λ w, total_value w ≠ 100) junk →
  get_dollar_words (l1 ++ junk ++ l2) = get_dollar_words (l1 ++ l2).
Proof.
  intros Hjunk. rewrite !get_dollar_words_app.
  rewrite (get_dollar_words_filter junk), (filter_none _ junk Hjunk). done.
Qed.

Lemma get_dollar_words_skips_witness :
  Forall (λ w, total_value w ≠ 100) change ∧
  get_dollar_words (dollar ++ change ++ dollar)
    = get_dollar_words (dollar ++ dollar).
Proof.
  assert (Forall (λ w, total_value w ≠ 100) change) as H.
  { by apply (bool_decide_unpack _); vm_compute. }
  split; [exact H|]. exact (get_dollar_words_skips dollar change dollar H).
Defined.

(** X4: of a list repeated [n] times [get_dollar_words] returns its result
    for the list, repeated [n] times. *)
Theorem get_dollar_words_mul (words : list string) (n : nat) :
  get_dollar_words (list_mul words n) = list_mul (get_dollar_words words) n.
Proof.
  induction n as [|n IH]; [done|].
  by rewrite !list_mul_S, get_dollar_words_app, IH.
Qed.

(** X5: given a string in place of a list of words, [get_dollar_words]
    takes each character for a word and returns the empty list, whatever
    the string. *)
Theorem get_dollar_words_of_string (s : string) :
  get_dollar_words (str_iter s) = [].
Proof.
  rewrite get_dollar_words_filter. apply filter_none.
  unfold str_iter. apply Forall_fmap, Forall_forall. intros c _. simpl.
  rewrite total_value_one. pose proof (letter_value_bounds c). lia.
Qed.

(** X6: a word [get_dollar_words] returns that is made of the letters [a]
    to [z] only has at most 100 characters, and at least 4. *)
Theorem dollar_words_lowercase_length (words : list string) (w : string) :
  w ∈ get_dollar_words words →
  Forall (λ c, c ∈ lowercase) (letters w) →
  4 ≤ str_len w ≤ 100.
Proof.
  rewrite get_dollar_words_filter. intros [Hw _]%list_elem_of_filter Hlow.
  apply length_le_total in Hlow. rewrite length_letters in Hlow.
  pose proof (total_le_length (letters w)) as Hup.
  rewrite length_letters in Hup. unfold total_value in Hw. lia.
Qed.

Lemma dollar_words_lowercase_length_witness : 4 ≤ str_len "yyyax" ≤ 100.
Proof.
  apply (dollar_words_lowercase_length dollar "yyyax").
  - by apply (bool_decide_unpack _); vm_compute.
  - by apply (bool_decide_unpack _); vm_compute.
Defined.

(** X7: the inner loop runs at most once for each character of the word,
    and at most 101 times, however long the word, when the word is made of
    the letters [a] to [z] only. *)
Theorem scan_iterations (w : string) :
  (List.length (running 0 (letters w)) ≤ List.length (letters w))%nat ∧
  (Forall (λ c, c ∈ lowercase) (letters w) →
     (List.length (running 0 (letters w)) ≤ 101)%nat).
Proof.
  split; [apply running_length|].
  intros Hlow. pose proof (running_length_lowercase 0 _ Hlow). lia.
Qed.

(** X8: white space at the ends of a word adds nothing to its value, so
    stripping the words before the call, as the driver does, and stripping
    the words it returns select the same words. *)
Theorem get_dollar_words_strip (words : list string) :
  (∀ w, total_value (strip w) = total_value w) ∧
  get_dollar_words (strip <$> words) = strip <$> get_dollar_words words.
Proof.
  split; [apply total_value_strip|].
  rewrite !get_dollar_words_filter, filter_fmap. f_equal.
  apply list_filter_iff. intros w. by rewrite total_value_strip.
Qed.

Lemma letter_value_zero (c : ascii) : letter_value c = 0 ∨ c ∈ lowercase.
Proof.
  destruct c as [[] [] [] [] [] [] [] []];
    first [by left | right; by apply (bool_decide_unpack _); vm_compute].
Qed.

Lemma total_filter_lowercase (w : list ascii) :
  total (filter (λ c, c ∈ lowercase) w) = total w.
Proof.
  induction w as [|c w IH]; [done|].
  rewrite filter_cons, total_cons.
  destruct (decide (c ∈ lowercase)) as [Hc|Hc].
  - by rewrite total_cons, IH.
  - destruct (letter_value_zero c) as [->|]; [by rewrite IH|done].
Qed.

(** X13: only the letters [a] to [z] count: the value of a word is that of
    its letters [a] to [z] with every other character left out, and a word
    with no such letter is never returned. *)
Theorem other_characters_ignored (w : string) :
  total_value w = total (filter (λ c, c ∈ lowercase) (letters w)) ∧
  (Forall (λ c, c ∉ lowercase) (letters w) →
     ∀ words, w ∉ get_dollar_words words).
Proof.
  split; [by rewrite total_filter_lowercase|].
  intros Hnone words. rewrite get_dollar_words_filter.
  intros [Hw _]%list_elem_of_filter.
  unfold total_value in Hw. rewrite <- total_filter_lowercase in Hw.
  rewrite (filter_none _ _ Hnone), total_nil in Hw. done.
Qed.

(** ** More on [sort_by_length] *)

Lemma insert_key_filter (n : Z) (p : Z * item) (l : list (Z * item)) :
  filter (λ q, q.1 = n) (insert_key p l) = filter (λ q, q.1 = n) (p :: l).
Proof.
  induction l as [|q l IH]; [done|]. simpl.
  destruct (Z.ltb_spec q.1 p.1) as [Hlt|Hge]; [|done].
  rewrite (filter_cons _ q), IH, !filter_cons.
  destruct (decide (q.1 = n)), (decide (p.1 = n)); try done. lia.
Qed.

Lemma stable_sort_filter (n : Z) (l : list (Z * item)) :
  filter (λ q, q.1 = n) (stable_sort l) = filter (λ q, q.1 = n) l.
Proof.
  induction l as [|p l IH]; [done|].
  unfold stable_sort in *. simpl. by rewrite insert_key_filter, !filter_cons, IH.
Qed.

Lemma filter_len_fmap (n : Z) (kl : list (Z * item)) :
  Forall (λ p, len p.2 = Return p.1) kl →
  filter (λ w, len w = Return n) kl.*2 = (filter (λ q, q.1 = n) kl).*2.
Proof.
  induction 1 as [|[k x] kl Hk _ IH]; [done|]. simpl in Hk.
  rewrite fmap_cons, !filter_cons, IH. simpl. rewrite Hk.
  destruct (decide (Return k = Return n)) as [Heq|Hne],
    (decide (k = n)) as [Hk'|Hk']; try done.
  - by inversion Heq.
  - by subst.
Qed.

Lemma list_sort_stable (l l' : list item) (n : Z) :
  list_sort len l = Return l' →
  filter (λ w, len w = Return n) l' = filter (λ w, len w = Return n) l.
Proof.
  intros (kl & Hkl & ->)%list_sort_Return.
  apply decorate_Return in Hkl as [<- HF].
  rewrite !filter_len_fmap, stable_sort_filter; [done..|].
  by rewrite stable_sort_perm.
Qed.

Lemma lengths_decorate (l : list item) (ns : list Z) :
  lengths l = Return ns → ∃ kl, decorate len l = Return kl ∧ kl.*1 = ns.
Proof.
  revert ns. induction l as [|w l IH]; intros ns; simpl.
  - intros [= <-]. by exists [].
  - destruct (len w) as [n|e]; [|done]. simpl.
    destruct (lengths l) as [ns'|e]; [|done]. simpl. intros [= <-].
    destruct (IH ns' eq_refl) as (kl & -> & <-). by eexists.
Qed.

Lemma lengths_measurable (l : list item) (ns : list Z) :
  lengths l = Return ns → Forall measurable l.
Proof.
  intros (kl & Hkl & _)%lengths_decorate.
  apply decorate_Return in Hkl as [<- HF]. apply Forall_fmap.
  eapply Forall_impl; [done|]. intros [k x] Hp. by exists k.
Qed.

Lemma lengths_sizes (l : list item) (ns : list Z) :
  lengths l = Return ns →
  ns = (λ w, match len w with Return n => n | Raise _ => 0 end) <$> l.
Proof.
  revert ns. induction l as [|w l IH]; intros ns; simpl.
  - by intros [= <-].
  - destruct (len w) as [n|e]; [|done]. simpl.
    destruct (lengths l) as [ns'|e]; [|done]. simpl. intros [= <-].
    by rewrite (IH ns' eq_refl).
Qed.

Lemma Sorted_key_le (kl : list (Z * item)) :
  Sorted Z.le kl.*1 → Sorted key_le kl.
Proof.
  induction kl as [|p kl IH]; [constructor|].
  rewrite fmap_cons. inversion_clear 1 as [|? ? Hs Hhd].
  constructor; [by apply IH|].
  destruct kl as [|q kl]; constructor. by inversion Hhd.
Qed.

Lemma list_sort_sorted_input (l : list item) (ns : list Z) :
  lengths l = Return ns → Sorted Z.le ns → list_sort len l = Return l.
Proof.
  intros (kl & Hkl & <-)%lengths_decorate Hs.
  unfold list_sort. rewrite Hkl. simpl.
  rewrite stable_sort_id by by apply Sorted_key_le.
  by apply decorate_Return in Hkl as [-> _].
Qed.

(** X9: the sort is stable: after [sort_by_length] the items of any one
    length are in the order they had before. *)
Theorem sort_by_length_stable (items : loc) (σ : store) (l : list item)
    (r : loc) (σ' : store) :
  σ !! items = Some l →
  sort_by_length items σ = Some (Return r, σ') →
  ∃ l', σ' !! r = Some l' ∧
    ∀ n, filter (λ w, len w = Return n) l' = filter (λ w, len w = Return n) l.
Proof.
  intros Hl. rewrite (sort_by_length_lookup _ _ l Hl).
  destruct (list_sort len l) as [l'|e] eqn:Hs; [|done].
  intros [= <- <-]. exists l'. split; [apply lookup_insert_eq|].
  intros n. by apply list_sort_stable.
Qed.

Lemma sort_by_length_stable_witness :
  ∃ l', ({[1%positive := [Str ""; Str "ba"; Tuple [1; 2]; Str "ab"]]} : store)
          !! 1%positive = Some l' ∧
    ∀ n, filter (λ w, len w = Return n) l'
         = filter (λ w, len w = Return n)
             [Str "ba"; Tuple [1; 2]; Str ""; Str "ab"].
Proof.
  apply (sort_by_length_stable 1%positive
           {[1%positive := [Str "ba"; Tuple [1; 2]; Str ""; Str "ab"]]}
           [Str "ba"; Tuple [1; 2]; Str ""; Str "ab"] 1%positive
           {[1%positive := [Str ""; Str "ba"; Tuple [1; 2]; Str "ab"]]}).
  - reflexivity.
  - by vm_compute.
Defined.

(** X10: a list already in order of length is left exactly as it is, and
    so is the whole store. *)
Theorem sort_by_length_sorted_input (items : loc) (σ : store)
    (l : list item) (ns : list Z) :
  σ !! items = Some l →
  lengths l = Return ns →
  Sorted Z.le ns →
  sort_by_length items σ = Some (Return items, σ).
Proof.
  intros Hl Hns Hs.
  rewrite (sort_by_length_Return _ _ l l Hl)
    by by apply list_sort_sorted_input with ns.
  by rewrite insert_id.
Qed.

Lemma sort_by_length_sorted_input_witness :
  sort_by_length 1%positive {[1%positive := in_order]}
    = Some (Return 1%positive, {[1%positive := in_order]}).
Proof.
  apply (sort_by_length_sorted_input 1%positive {[1%positive := in_order]}
           in_order [0; 3; 4; 4; 5; 50; 100]).
  - reflexivity.
  - reflexivity.
  - repeat constructor; lia.
Defined.

(** X11: the lengths the sorted list shows depend on the items alone, not
    on their order before: two lists with the same items, as often, are
    sorted to the same sequence of lengths. *)
Theorem sort_by_length_permuted (i1 i2 : loc) (σ1 σ2 : store)
    (l1 l2 : list item) :
  σ1 !! i1 = Some l1 →
  σ2 !! i2 = Some l2 →
  l1 ≡ₚ l2 →
  Forall measurable l1 →
  ∃ l1' l2' ns,
    sort_by_length i1 σ1 = Some (Return i1, <[i1 := l1']> σ1) ∧
    sort_by_length i2 σ2 = Some (Return i2, <[i2 := l2']> σ2) ∧
    lengths l1' = Return ns ∧
    lengths l2' = Return ns ∧
    l1' ≡ₚ l2'.
Proof.
  intros H1 H2 Hperm Hm1.
  assert (Forall measurable l2) as Hm2 by by rewrite <- Hperm.
  apply list_sort_total in Hm1 as [l1' Hs1], Hm2 as [l2' Hs2].
  destruct (list_sort_len _ _ Hs1) as (Hp1 & (n1 & Hn1 & Hsorted1) & _).
  destruct (list_sort_len _ _ Hs2) as (Hp2 & (n2 & Hn2 & Hsorted2) & _).
  assert (l1' ≡ₚ l2') as Hp by by rewrite Hp1, Hp2.
  exists l1', l2', n1.
  split; [by apply sort_by_length_Return with l1|].
  split; [by apply sort_by_length_Return with l2|].
  split; [done|]. split; [|done].
  rewrite Hn2. f_equal. symmetry.
  apply (Sorted_unique Z.le); [done..|].
  rewrite (lengths_sizes _ _ Hn1), (lengths_sizes _ _ Hn2). by rewrite Hp.
Qed.

Lemma sort_by_length_permuted_witness :
  ∃ l1' l2' ns,
    sort_by_length 1%positive {[1%positive := in_order]}
      = Some (Return 1%positive,
              <[1%positive := l1']> {[1%positive := in_order]}) ∧
    sort_by_length 2%positive {[2%positive := reverse in_order]}
      = Some (Return 2%positive,
              <[2%positive := l2']> {[2%positive := reverse in_order]}) ∧
    lengths l1' = Return ns ∧
    lengths l2' = Return ns ∧
    l1' ≡ₚ l2'.
Proof.
  apply (sort_by_length_permuted 1%positive 2%positive
           {[1%positive := in_order]} {[2%positive := reverse in_order]}
           in_order (reverse in_order)).
  - reflexivity.
  - reflexivity.
  - symmetry. apply reverse_Permutation.
  - repeat constructor; by eexists.
Defined.

(** ** The driver *)

Lemma strs_Str (ws : list string) : strs (Str <$> ws) = Return ws.
Proof.
  induction ws as [|w ws IH]; [done|].
  rewrite fmap_cons. simpl. by rewrite IH.
Qed.

Lemma lengths_Str (ws : list string) :
  lengths (Str <$> ws) = Return (str_len <$> ws).
Proof.
  induction ws as [|w ws IH]; [done|].
  rewrite !fmap_cons. simpl. by rewrite IH.
Qed.

Lemma join_Str (sep : string) (ws : list string) :
  join sep (Str <$> ws) = Return (str_join sep ws).
Proof. unfold join. by rewrite strs_Str. Qed.

(** A rearrangement of a list of strings is a list of strings. *)
Lemma Permutation_Str (l : list item) (ds : list string) :
  l ≡ₚ Str <$> ds → ∃ ws, l = Str <$> ws ∧ ws ≡ₚ ds.
Proof.
  intros Hperm.
  exists ((λ w, match w with Str s => s | _ => EmptyString end) <$> l). split.
  - assert (Forall (λ w, ∃ s, w = Str s) l) as Hall.
    { rewrite Hperm. apply Forall_fmap, Forall_forall. intros s _. by exists s. }
    clear Hperm. induction Hall as [|w l [s ->] _ IH]; [done|].
    rewrite !fmap_cons. simpl. by rewrite <- IH.
  - rewrite Hperm, <- list_fmap_compose. by rewrite list_fmap_id.
Qed.

Lemma option_bind_Some {A B} (f : A → option B) (x : A) : Some x ≫= f = f x.
Proof. reflexivity. Qed.

Lemma main_unfold (lines : list string) :
  main lines =
    sort_by_length 2%positive
      {[1%positive := Str <$> (strip <$> lines);
        2%positive := Str <$> get_dollar_words (strip <$> lines)]}
    ≫= λ '(r, σ'),
      match r with
      | Raise e => Some (Raise e, σ')
      | Return sorted_words =>
          σ' !! sorted_words ≫= λ l,
            Some (join newline l ≫= λ text, Return (text +:+ newline), σ')
      end.
Proof. reflexivity. Qed.

(** X12: for any lines read, the driver raises nothing and prints, one on a
    line, the stripped lines whose letters sum to 100, each as often as it
    was read, in order of length and, among words of one length, in the
    order read; the list [words] is as it was. *)
Theorem main_prints (lines : list string) :
  ∃ ws σ',
    main lines = Some (Return (str_join newline ws +:+ newline), σ') ∧
    ws ≡ₚ filter (λ w, total_value w = 100) (strip <$> lines) ∧
    Sorted Z.le (str_len <$> ws) ∧
    (∀ n, filter (λ w, str_len w = n) ws
          = filter (λ w, str_len w = n)
              (filter (λ w, total_value w = 100) (strip <$> lines))) ∧
    σ' !! 1%positive = Some (Str <$> (strip <$> lines)) ∧
    σ' !! 2%positive = Some (Str <$> ws) ∧
    ws ≡ₚ filter (λ w, alphabet_value w = 100) (strip <$> lines).
Proof.
  rewrite main_unfold. rewrite get_dollar_words_filter.
  set (words := strip <$> lines).
  set (ds := filter (λ w, total_value w = 100) words).
  set (σ := ({[1%positive := Str <$> words; 2%positive := Str <$> ds]} : store)).
  assert (σ !! 2%positive = Some (Str <$> ds)) as Hl.
  { unfold σ. rewrite lookup_insert_ne by done. apply lookup_singleton_eq. }
  destruct (list_sort_total (Str <$> ds)) as [l' Hs].
  { apply Forall_fmap, Forall_forall. intros s _. by eexists. }
  destruct (list_sort_len _ _ Hs) as (Hperm & (ns & Hns & Hsorted) & _).
  destruct (Permutation_Str _ _ Hperm) as (ws & -> & Hws).
  rewrite lengths_Str in Hns. injection Hns as <-.
  rewrite (sort_by_length_Return _ _ _ _ Hl Hs).
  rewrite option_bind_Some. cbv beta iota.
  rewrite lookup_insert_eq, option_bind_Some, join_Str.
  exists ws, (<[2%positive := Str <$> ws]> σ).
  split; [done|]. split; [done|]. split; [done|]. split; [|split; [|split]].
  - intros n. pose proof (list_sort_stable _ _ n Hs) as Hst.
    rewrite !filter_fmap in Hst. apply (inj (fmap Str)) in Hst.
    etrans; [|etrans; [exact Hst|]]; apply list_filter_iff; intros w; simpl;
      split; congruence.
  - rewrite lookup_insert_ne by done. apply lookup_insert_eq.
  - apply lookup_insert_eq.
  - rewrite Hws. unfold ds.
    assert (filter (λ w, total_value w = 100) words
              = filter (λ w, alphabet_value w = 100) words) as ->; [|done].
    apply list_filter_iff. intros w. by rewrite total_value_alphabet.
Qed.
